(** * A shallow embedding of [task01.py]: contacts, phones and the address book

    The Python module defines four classes ([Field], [Name], [Phone],
    [Record]) and a [UserDict] subclass [AddressBook].  Every method is
    translated below into a Rocq function of the same name:

    - Python strings are sequences of Unicode code points ([list N]);
    - an exception is a value [Raise e] of the type [result];
    - a method of [Record] is a computation of the monad [M RecordObj]:
      it threads the object's fields and may raise, in which case the
      fields are returned as they were when the exception left the method;
    - [Record] objects are mutable and are shared by reference, so the
      address book maps a name to a reference into a store of objects. *)

From Stdlib Require Import NArith Ascii String.
From stdpp Require Import base option list countable functions gmap.

Local Open Scope N_scope.
Local Open Scope list_scope.

(** ** Python strings *)

(** A [str] is a sequence of Unicode code points. *)
Abbreviation pystr := (list N).

(** A string literal of the source (all of them are ASCII). *)
Definition lit (s : string) : pystr := N_of_ascii <$> list_ascii_of_string s.

(** *** The character tables behind [str.isdigit] and [str.isdecimal]

    CPython classifies a character by two fields of the Unicode character
    database: a character [isdecimal] when it has Numeric_Type=Decimal
    (general category Nd), and it [isdigit] when it has Numeric_Type=Decimal
    or Numeric_Type=Digit.  The two tables list the code point ranges of
    Unicode 14.0, the database of CPython 3.11. *)

Definition decimal_ranges : list (N * N) :=
  [ (48, 57); (1632, 1641); (1776, 1785); (1984, 1993); (2406, 2415);
    (2534, 2543); (2662, 2671); (2790, 2799); (2918, 2927); (3046, 3055);
    (3174, 3183); (3302, 3311); (3430, 3439); (3558, 3567); (3664, 3673);
    (3792, 3801); (3872, 3881); (4160, 4169); (4240, 4249); (6112, 6121);
    (6160, 6169); (6470, 6479); (6608, 6617); (6784, 6793); (6800, 6809);
    (6992, 7001); (7088, 7097); (7232, 7241); (7248, 7257); (42528, 42537);
    (43216, 43225); (43264, 43273); (43472, 43481); (43504, 43513);
    (43600, 43609); (44016, 44025); (65296, 65305); (66720, 66729);
    (68912, 68921); (69734, 69743); (69872, 69881); (69942, 69951);
    (70096, 70105); (70384, 70393); (70736, 70745); (70864, 70873);
    (71248, 71257); (71360, 71369); (71472, 71481); (71904, 71913);
    (72016, 72025); (72784, 72793); (73040, 73049); (73120, 73129);
    (92768, 92777); (92864, 92873); (93008, 93017); (120782, 120831);
    (123200, 123209); (123632, 123641); (125264, 125273); (130032, 130041) ].

(** Numeric_Type=Digit: superscripts and subscripts, circled and
    parenthesised digits, Ethiopic, Kharoshthi, Rumi and Brahmi digits. *)
Definition digit_ranges : list (N * N) :=
  [ (178, 179); (185, 185); (4969, 4977); (6618, 6618); (8304, 8304);
    (8308, 8313); (8320, 8329); (9312, 9320); (9332, 9340); (9352, 9360);
    (9450, 9450); (9461, 9469); (9471, 9471); (10102, 10110); (10112, 10120);
    (10122, 10130); (68160, 68163); (69216, 69224); (69714, 69722);
    (127232, 127242) ].

Definition in_ranges (table : list (N * N)) (c : N) : bool :=
  existsb (λ r, (fst r <=? c) && (c <=? snd r)) table.

Definition isdecimal_char (c : N) : bool := in_ranges decimal_ranges c.

Definition isdigit_char (c : N) : bool :=
  in_ranges decimal_ranges c || in_ranges digit_ranges c.

(** The ten characters ['0'] .. ['9']. *)
Definition ascii_digit_char (c : N) : bool := (48 <=? c) && (c <=? 57).

(** [str.isdigit()]: all characters are digits and there is at least one. *)
Definition isdigit (s : pystr) : bool :=
  negb (bool_decide (s = [])) && forallb isdigit_char s.

(** [len(s)] *)
Definition len {A} (l : list A) : N := N.of_nat (length l).

(** [sep.join(items)]: the items, with [sep] between consecutive ones. *)
Fixpoint join_from (sep : pystr) (acc : pystr) (items : list pystr) : pystr :=
  match items with
  | [] => acc
  | x :: items' => join_from sep (acc ++ sep ++ x) items'
  end.

Definition join (sep : pystr) (items : list pystr) : pystr :=
  match items with
  | [] => []
  | x :: items' => join_from sep x items'
  end.

(** ** Exceptions and the method monad *)

(** The exceptions of the built-in operations the module uses.  The module
    itself raises only [ValueError]. *)
Inductive exn : Type :=
  | ValueError (msg : string)
  | IndexError (msg : string)
  | KeyError (key : pystr).

Inductive result (A : Type) : Type :=
  | Ok (a : A)
  | Raise (e : exn).
Arguments Ok {A} a.
Arguments Raise {A} e.

(** A method run on an object of state [S]: the outcome, and the state the
    object is left in (also when the method raises). *)
Definition M (S A : Type) : Type := S → result A * S.

Definition ret {S A} (a : A) : M S A := λ s, (Ok a, s).

Definition bind {S A B} (m : M S A) (k : A → M S B) : M S B :=
  λ s, match m s with
       | (Ok a, s') => k a s'
       | (Raise e, s') => (Raise e, s')
       end.

Definition gets {S A} (f : S → A) : M S A := λ s, (Ok (f s), s).

Definition modify {S} (f : S → S) : M S unit := λ s, (Ok tt, f s).

(** Evaluating an expression that may raise inside a method. *)
Definition eval {S A} (r : result A) : M S A := λ s, (r, s).

Declare Scope method_scope.
Delimit Scope method_scope with method.
Notation "x <- m ;; k" := (bind m (λ x, k))
  (at level 100, m at next level, right associativity) : method_scope.
Notation "m ;; k" := (bind m (λ _, k))
  (at level 100, right associativity) : method_scope.

(** ** [Field], [Name] and [Phone] *)

(** [class Field]: one attribute, [value].  [Name] and [Phone] add no
    attribute and no method; they only guard the constructor. *)
Record Field : Type := mkField { value : pystr }.

Global Instance Field_eq_dec : EqDecision Field.
Proof. solve_decision. Defined.

Definition Field_init (v : pystr) : result Field := Ok (mkField v).

(** [Field.__str__]: [str(self.value)], the value itself for a [str]. *)
Definition Field_str (self : Field) : pystr := value self.

(** [Name.__init__]: [if not value: raise ValueError(...)]; a [str] is falsy
    exactly when it is empty. *)
Definition Name_init (v : pystr) : result Field :=
  if bool_decide (v = [])
  then Raise (ValueError "The name cannot be empty.")
  else Field_init v.

(** The guard of [Phone.__init__], negated: the values the constructor
    lets through. *)
Definition phone_valid (v : pystr) : bool :=
  negb (negb (isdigit v) || negb (len v =? 10)).

(** [Phone.__init__]:
    [if not value.isdigit() or len(value) != 10: raise ValueError(...)]. *)
Definition Phone_init (v : pystr) : result Field :=
  if negb (isdigit v) || negb (len v =? 10)
  then Raise (ValueError "The phone number must contain exactly 10 digits")
  else Field_init v.

(** ** Built-in list and dict operations, with their failure modes *)

(** [l.remove(x)]: drops the first item equal to [x]; [ValueError] when
    there is none.  [Field] defines no [__eq__], so Python compares the
    objects by identity; [remove_phone] calls it with the first item that
    carries its value, which is also the first item identical to it. *)
Fixpoint list_remove `{EqDecision A} (x : A) (l : list A) : result (list A) :=
  match l with
  | [] => Raise (ValueError "list.remove(x): x not in list")
  | y :: l' =>
      if decide (y = x) then Ok l'
      else match list_remove x l' with
           | Ok r => Ok (y :: r)
           | Raise e => Raise e
           end
  end.

(** [l[i] = x]: [IndexError] out of range. *)
Definition list_setitem {A} (i : nat) (x : A) (l : list A) : result (list A) :=
  if decide (i < length l)%nat then Ok (<[i:=x]> l)
  else Raise (IndexError "list assignment index out of range").

(** [del d[k]]: [KeyError] when the key is absent. *)
Definition dict_del {V} (k : pystr) (d : gmap pystr V) : result (gmap pystr V) :=
  match d !! k with
  | Some _ => Ok (delete k d)
  | None => Raise (KeyError k)
  end.

(** ** [Record] *)

(** The attributes of a [Record] object. *)
Record RecordObj : Type := mkRecord { name : Field; phones : list Field }.

Definition set_phones (ps : list Field) (self : RecordObj) : RecordObj :=
  mkRecord (name self) ps.

(** [Record.__init__]: [self.name = Name(name); self.phones = []]. *)
Definition Record_init (n : pystr) : result RecordObj :=
  match Name_init n with
  | Ok nm => Ok (mkRecord nm [])
  | Raise e => Raise e
  end.

Section methods.
Local Open Scope method_scope.

(** [self.phones.append(Phone(phone))] *)
Definition add_phone (phone : pystr) : M RecordObj unit :=
  p <- eval (Phone_init phone) ;;
  modify (λ self, set_phones (phones self ++ [p]) self).

(** The [for p in self.phones] loop of [remove_phone], at the items not
    yet visited. *)
Fixpoint remove_phone_loop (phone : pystr) (rest : list Field) : M RecordObj bool :=
  match rest with
  | [] => ret false
  | p :: rest' =>
      if bool_decide (value p = phone) then
        ps <- gets phones ;;
        ps' <- eval (list_remove p ps) ;;
        modify (set_phones ps') ;;
        ret true
      else remove_phone_loop phone rest'
  end.

Definition remove_phone (phone : pystr) : M RecordObj bool :=
  ps <- gets phones ;;
  remove_phone_loop phone ps.

(** The [for i, p in enumerate(self.phones)] loop of [edit_phone]: [i] is
    the index of the head of [rest].  [Phone(new_phone)] is evaluated
    before the assignment to [self.phones[i]]. *)
Fixpoint edit_phone_loop (old_phone new_phone : pystr) (i : nat) (rest : list Field)
  : M RecordObj bool :=
  match rest with
  | [] => ret false
  | p :: rest' =>
      if bool_decide (value p = old_phone) then
        q <- eval (Phone_init new_phone) ;;
        ps <- gets phones ;;
        ps' <- eval (list_setitem i q ps) ;;
        modify (set_phones ps') ;;
        ret true
      else edit_phone_loop old_phone new_phone (S i) rest'
  end.

Definition edit_phone (old_phone new_phone : pystr) : M RecordObj bool :=
  ps <- gets phones ;;
  edit_phone_loop old_phone new_phone 0 ps.

(** [find_phone]: the first item with the value, or [None]. *)
Fixpoint find_phone_loop (phone : pystr) (rest : list Field) : M RecordObj (option Field) :=
  match rest with
  | [] => ret None
  | p :: rest' =>
      if bool_decide (value p = phone) then ret (Some p)
      else find_phone_loop phone rest'
  end.

Definition find_phone (phone : pystr) : M RecordObj (option Field) :=
  ps <- gets phones ;;
  find_phone_loop phone ps.

End methods.

(** [Record.__str__]:
    [f"Contact name: {self.name.value}, phones: {'; '.join(p.value for p in self.phones)}"] *)
Definition Record_str (self : RecordObj) : pystr :=
  lit "Contact name: " ++ value (name self) ++ lit ", phones: "
    ++ join (lit "; ") (value <$> phones self).

(** ** [AddressBook] *)

(** A reference to a [Record] object. *)
Abbreviation ref := positive.

(** The objects the references denote.  A Python reference always denotes
    an object, so the store is a total function. *)
Abbreviation store := (ref → RecordObj).

(** [AddressBook(UserDict)]: the dictionary [self.data], from a name to a
    reference to the record. *)
Record AddressBook : Type := mkBook { data : gmap pystr ref }.

Section book.
Local Open Scope method_scope.
Variable σ : store.

(** [self.data[record.name.value] = record] *)
Definition add_record (record : ref) : M AddressBook unit :=
  modify (λ self, mkBook (<[value (name (σ record)) := record]> (data self))).

(** [return self.data.get(name)] *)
Definition find (n : pystr) : M AddressBook (option ref) :=
  gets (λ self, data self !! n).

(** [if name in self.data: del self.data[name]] *)
Definition delete (n : pystr) : M AddressBook unit :=
  d <- gets data ;;
  if bool_decide (is_Some (d !! n)) then
    d' <- eval (dict_del n d) ;;
    modify (λ _, mkBook d')
  else ret tt.

End book.

(** Calling a method of the record a reference denotes: the object is
    updated in the store, so every holder of the reference sees it. *)
Definition call {A} (r : ref) (m : M RecordObj A) : M store A :=
  λ σ, let (res, o) := m (σ r) in (res, <[r := o]> σ).

(** * Vocabulary of the properties *)

(** ** Outcomes and character classes *)

Definition phone_error : exn :=
  ValueError "The phone number must contain exactly 10 digits".

Definition name_error : exn := ValueError "The name cannot be empty.".

(** Every character is accepted by [str.isdigit]. *)
Definition all_isdigit (p : pystr) : Prop := Forall (λ c, isdigit_char c = true) p.

(** Every character is a decimal digit, in the wide sense of Unicode
    (category Nd, [str.isdecimal]) and in the narrow sense of ['0'..'9']. *)
Definition all_decimal (p : pystr) : Prop := Forall (λ c, isdecimal_char c = true) p.
Definition all_ascii_digit (p : pystr) : Prop := Forall (λ c, ascii_digit_char c = true) p.

(** Ten superscript twos, U+00B2. *)
Definition superscript_twos : pystr := replicate 10 178.

(** ** Searching the phone sequence *)

(** [v] is the value of no item of [l]. *)
Definition absent (v : pystr) (l : list Field) : Prop := ∀ q, q ∈ l → value q ≠ v.

(** [i] is the index of the first item of [l] with the value [v]. *)
Definition first_index (v : pystr) (l : list Field) (i : nat) : Prop :=
  (∃ p, l !! i = Some p ∧ value p = v)
  ∧ ∀ j q, (j < i)%nat → l !! j = Some q → value q ≠ v.

(** The number of items of [l] with the value [v]. *)
Definition occurrences (v : pystr) (l : list Field) : nat :=
  length (filter (λ p, value p = v) l).

(** ** The invariant of [Record] and the reachable states *)

(** The name is non-empty and every stored phone passes the check of
    [Phone]'s constructor. *)
Definition inv (r : RecordObj) : Prop :=
  value (name r) ≠ [] ∧ Forall (λ p, phone_valid (value p) = true) (phones r).

(** One mutation of a record through its methods; the state after the call
    is taken whether the call returned or raised. *)
Inductive step : RecordObj → RecordObj → Prop :=
  | step_add_phone raw r : step r (snd (add_phone raw r))
  | step_remove_phone raw r : step r (snd (remove_phone raw r))
  | step_edit_phone old_raw new_raw r : step r (snd (edit_phone old_raw new_raw r)).

(** The states of a record built by [Record(name)] and then mutated only
    through its methods. *)
Inductive reachable : RecordObj → Prop :=
  | reachable_init n r : Record_init n = Ok r → reachable r
  | reachable_step r r' : reachable r → step r r' → reachable r'.

(** Every entry of the book is filed under the name its record carries. *)
Definition book_wf (σ : store) (book : AddressBook) : Prop :=
  ∀ n r, data book !! n = Some r → value (name (σ r)) = n.

(** ** The string form, in the words of the specification *)

(** The string form as the specification words it: the items in order,
    with the separator between consecutive ones. *)
Fixpoint joined_with (sep : pystr) (items : list pystr) : pystr :=
  match items with
  | [] => []
  | x :: items' =>
      match items' with
      | [] => x
      | _ :: _ => x ++ sep ++ joined_with sep items'
      end
  end.

Definition string_form (n : pystr) (ps : list pystr) : pystr :=
  lit "Contact name: " ++ n ++ lit ", phones: " ++ joined_with (lit "; ") ps.

(** ** The sample data of the module *)

Definition john : RecordObj :=
  mkRecord (mkField (lit "John"))
    [mkField (lit "1234567890"); mkField (lit "5555555555")].

Definition jane : RecordObj :=
  mkRecord (mkField (lit "Jane")) [mkField (lit "9876543210")].

(** A second record named John, with another phone. *)
Definition john' : RecordObj :=
  mkRecord (mkField (lit "John")) [mkField (lit "1112223333")].

(** References 1, 2 and 3 denote [john], [jane] and [john']. *)
Definition sample_store : store :=
  <[1%positive := john]> (<[2%positive := jane]> (λ _, john')).

Definition sample_book : AddressBook :=
  snd (add_record sample_store 2 (snd (add_record sample_store 1 (mkBook ∅)))).

(** * Properties *)

(** ** Field constructors *)

Lemma len_eq_10 {A} (l : list A) : (len l =? 10) = true ↔ length l = 10%nat.
Proof. unfold len. rewrite N.eqb_eq. lia. Qed.

Lemma isdigit_true (s : pystr) : isdigit s = true ↔ s ≠ [] ∧ all_isdigit s.
Proof.
  unfold isdigit, all_isdigit.
  rewrite andb_true_iff, negb_true_iff, bool_decide_eq_false, forallb_forall.
  rewrite Forall_forall. setoid_rewrite list_elem_of_In. reflexivity.
Qed.

Lemma phone_valid_true (p : pystr) :
  phone_valid p = true ↔ length p = 10%nat ∧ all_isdigit p.
Proof.
  unfold phone_valid.
  rewrite negb_true_iff, orb_false_iff, !negb_false_iff, isdigit_true, len_eq_10.
  split; [tauto |]. intros [Hlen Hall]. repeat split; auto.
  intros ->. discriminate Hlen.
Qed.

Lemma Phone_init_unfold (p : pystr) :
  Phone_init p = if phone_valid p then Ok (mkField p) else Raise phone_error.
Proof.
  unfold Phone_init, phone_valid, Field_init.
  destruct (negb (isdigit p) || negb (len p =? 10)); reflexivity.
Qed.

Lemma ascii_digit_isdigit (c : N) : ascii_digit_char c = true → isdigit_char c = true.
Proof.
  unfold ascii_digit_char, isdigit_char, in_ranges. intros H.
  apply orb_true_iff. left. simpl. rewrite H. reflexivity.
Qed.

(** C1, as stated, fails: the constructor accepts ten superscript twos and
    stores them, and a superscript two is not a decimal digit, neither in
    the Unicode sense nor as one of ['0'..'9']. *)
Lemma Phone_accepts_superscripts :
  Phone_init superscript_twos = Ok (mkField superscript_twos)
  ∧ length superscript_twos = 10%nat
  ∧ ¬ all_decimal superscript_twos
  ∧ ¬ all_ascii_digit superscript_twos.
Proof.
  split; [reflexivity |]. split; [reflexivity |].
  split; intros H; apply Forall_inv in H; vm_compute in H; discriminate H.
Qed.

(** C1, amended: [Phone(p)] succeeds and stores [p] verbatim if and only if
    [p] has length exactly 10 and every character of [p] is a digit in the
    sense of [str.isdigit] (Numeric_Type Decimal or Digit); for every other
    string it raises [ValueError].  Ten characters ['0'..'9'] are therefore
    always accepted. *)
Theorem Phone_init_spec (p : pystr) :
  (Phone_init p = Ok (mkField p) ↔ length p = 10%nat ∧ all_isdigit p)
  ∧ (¬ (length p = 10%nat ∧ all_isdigit p) → Phone_init p = Raise phone_error)
  ∧ (length p = 10%nat ∧ all_ascii_digit p → Phone_init p = Ok (mkField p)).
Proof.
  rewrite <- phone_valid_true, Phone_init_unfold.
  destruct (phone_valid p) eqn:Hv.
  - repeat split; auto. intros []; reflexivity.
  - split; [split; [discriminate | discriminate] |].
    split; [reflexivity |].
    intros [Hlen Hall]. exfalso.
    assert (phone_valid p = true) as Hv'; [| congruence].
    apply phone_valid_true. split; [assumption |].
    eapply Forall_impl; [exact Hall |]. apply ascii_digit_isdigit.
Qed.

Lemma Phone_init_spec_witness :
  Phone_init (lit "1234567890") = Ok (mkField (lit "1234567890"))
  ∧ Phone_init (lit "12345") = Raise phone_error
  ∧ Phone_init (lit "12345678ab") = Raise phone_error
  ∧ Phone_init (lit "123456789012") = Raise phone_error.
Proof.
  split.
  - apply (proj2 (proj2 (Phone_init_spec (lit "1234567890")))).
    split; [reflexivity |]. repeat constructor.
  - repeat split;
      match goal with
      | |- Phone_init ?p = _ => apply (proj1 (proj2 (Phone_init_spec p)))
      end; intros [Hlen _]; vm_compute in Hlen; discriminate Hlen.
Defined.

(** C9: [Name(s)] succeeds and stores [s] for every non-empty [s]; the empty
    string raises [ValueError], and so does [Record] on an empty name. *)
Theorem Name_init_spec :
  (∀ s : pystr, s ≠ [] → ∃ nm, Name_init s = Ok nm ∧ value nm = s)
  ∧ Name_init [] = Raise name_error
  ∧ Record_init [] = Raise name_error.
Proof.
  split; [| split; reflexivity].
  intros s Hs. exists (mkField s).
  unfold Name_init. rewrite bool_decide_eq_false_2 by assumption.
  split; reflexivity.
Qed.

Lemma Name_init_spec_witness :
  ∃ nm, Name_init (lit "John") = Ok nm ∧ value nm = lit "John".
Proof. apply (proj1 Name_init_spec (lit "John")). discriminate. Defined.

Lemma Record_init_Ok_inv (n : pystr) (r : RecordObj) :
  Record_init n = Ok r → n ≠ [] ∧ r = mkRecord (mkField n) [].
Proof.
  unfold Record_init, Name_init, Field_init. case_bool_decide; [discriminate |].
  intros [= <-]. auto.
Qed.

(** ** The loops of [Record] *)

Lemma absent_nil v : absent v [].
Proof. intros q Hq. inversion Hq. Qed.

Lemma absent_cons v p l : absent v (p :: l) ↔ value p ≠ v ∧ absent v l.
Proof.
  unfold absent. split.
  - intros H. split; [apply H; left | intros q Hq; apply H; right; exact Hq].
  - intros [Hp Hl] q Hq. apply elem_of_cons in Hq as [-> | Hq]; auto.
Qed.

Lemma absent_app v l1 l2 : absent v (l1 ++ l2) ↔ absent v l1 ∧ absent v l2.
Proof.
  induction l1 as [| p l1 IH]; simpl.
  - split; [intros H; split; [apply absent_nil | exact H] | intros [_ H]; exact H].
  - rewrite !absent_cons, IH. tauto.
Qed.

#[local] Hint Resolve absent_nil : core.

(** An item with the value splits the list at its first occurrence. *)
Lemma first_match_split (v : pystr) (l : list Field) :
  (∃ p, p ∈ l ∧ value p = v) →
  ∃ l1 p l2, l = l1 ++ p :: l2 ∧ value p = v ∧ absent v l1.
Proof.
  induction l as [| q l IH]; intros (p & Hin & Hv).
  - inversion Hin.
  - destruct (decide (value q = v)) as [Hq | Hq].
    + exists [], q, l. auto.
    + apply elem_of_cons in Hin as [-> | Hin]; [contradiction |].
      destruct IH as (l1 & p' & l2 & -> & Hp' & Habs); [eauto |].
      exists (q :: l1), p', l2. split; [reflexivity |]. split; [assumption |].
      apply absent_cons. auto.
Qed.

(** [list.remove] at the first item with the value of [p]. *)
Lemma list_remove_first (l1 l2 : list Field) (p : Field) :
  absent (value p) l1 → list_remove p (l1 ++ p :: l2) = Ok (l1 ++ l2).
Proof.
  induction l1 as [| q l1 IH]; simpl; intros Habs.
  - rewrite decide_True by reflexivity. reflexivity.
  - apply absent_cons in Habs as [Hq Habs].
    rewrite decide_False by (intros ->; contradiction).
    rewrite IH by assumption. reflexivity.
Qed.

Section loops.
Variables (self : RecordObj) (v : pystr).

Lemma remove_phone_loop_absent (rest : list Field) :
  absent v rest → remove_phone_loop v rest self = (Ok false, self).
Proof.
  induction rest as [| q rest IH]; intros Habs; simpl; [reflexivity |].
  apply absent_cons in Habs as [Hq Habs].
  rewrite bool_decide_eq_false_2 by assumption. auto.
Qed.

(** The loop stops at the first item with the value and hands it to
    [list.remove], which runs on the whole list. *)
Lemma remove_phone_loop_found (l1 l2 : list Field) (p : Field) :
  absent v l1 → value p = v →
  remove_phone_loop v (l1 ++ p :: l2) self =
    match list_remove p (phones self) with
    | Ok ps' => (Ok true, set_phones ps' self)
    | Raise e => (Raise e, self)
    end.
Proof.
  intros Habs Hp. induction l1 as [| q l1 IH]; simpl.
  - rewrite bool_decide_eq_true_2 by assumption.
    unfold bind, gets, eval, modify, ret.
    destruct (list_remove p (phones self)); reflexivity.
  - apply absent_cons in Habs as [Hq Habs].
    rewrite bool_decide_eq_false_2 by assumption. auto.
Qed.

Lemma edit_phone_loop_absent (new_phone : pystr) (i : nat) (rest : list Field) :
  absent v rest → edit_phone_loop v new_phone i rest self = (Ok false, self).
Proof.
  revert i. induction rest as [| q rest IH]; intros i Habs; simpl; [reflexivity |].
  apply absent_cons in Habs as [Hq Habs].
  rewrite bool_decide_eq_false_2 by assumption. auto.
Qed.

(** The loop stops at the first item with the value, at index
    [i + length l1], constructs the new phone and then assigns. *)
Lemma edit_phone_loop_found (new_phone : pystr) (i : nat) (l1 l2 : list Field) (p : Field) :
  absent v l1 → value p = v →
  edit_phone_loop v new_phone i (l1 ++ p :: l2) self =
    match Phone_init new_phone with
    | Ok q =>
        match list_setitem (i + length l1) q (phones self) with
        | Ok ps' => (Ok true, set_phones ps' self)
        | Raise e => (Raise e, self)
        end
    | Raise e => (Raise e, self)
    end.
Proof.
  intros Habs Hp. revert i. induction l1 as [| q l1 IH]; intros i; simpl.
  - rewrite bool_decide_eq_true_2 by assumption.
    unfold bind, gets, eval, modify, ret. rewrite Nat.add_0_r.
    destruct (Phone_init new_phone); [| reflexivity].
    destruct (list_setitem i _ (phones self)); reflexivity.
  - apply absent_cons in Habs as [Hq Habs].
    rewrite bool_decide_eq_false_2 by assumption.
    rewrite IH by assumption. rewrite Nat.add_succ_r. reflexivity.
Qed.

End loops.

Lemma remove_phone_absent (r : RecordObj) (raw : pystr) :
  absent raw (phones r) → remove_phone raw r = (Ok false, r).
Proof. intros H. unfold remove_phone, bind, gets. apply remove_phone_loop_absent, H. Qed.

Lemma remove_phone_found (r : RecordObj) (raw : pystr) (l1 l2 : list Field) (p : Field) :
  phones r = l1 ++ p :: l2 → value p = raw → absent raw l1 →
  remove_phone raw r = (Ok true, set_phones (l1 ++ l2) r).
Proof.
  intros Hps Hp Habs. unfold remove_phone, bind, gets.
  rewrite Hps at 1. rewrite remove_phone_loop_found by assumption.
  rewrite Hps, list_remove_first by (rewrite Hp; assumption). reflexivity.
Qed.

Lemma edit_phone_absent (r : RecordObj) (old_raw new_raw : pystr) :
  absent old_raw (phones r) → edit_phone old_raw new_raw r = (Ok false, r).
Proof. intros H. unfold edit_phone, bind, gets. apply edit_phone_loop_absent, H. Qed.

Lemma edit_phone_found (r : RecordObj) (old_raw new_raw : pystr) (l1 l2 : list Field) (p : Field) :
  phones r = l1 ++ p :: l2 → value p = old_raw → absent old_raw l1 →
  edit_phone old_raw new_raw r =
    if phone_valid new_raw
    then (Ok true, set_phones (l1 ++ mkField new_raw :: l2) r)
    else (Raise phone_error, r).
Proof.
  intros Hps Hp Habs. unfold edit_phone, bind, gets.
  rewrite Hps at 1. rewrite edit_phone_loop_found by assumption.
  rewrite Phone_init_unfold. destruct (phone_valid new_raw); [| reflexivity].
  unfold list_setitem. simpl. rewrite Hps, decide_True.
  - rewrite insert_app_r_alt, Nat.sub_diag by reflexivity. reflexivity.
  - rewrite length_app. simpl. lia.
Qed.

Lemma match_or_absent (v : pystr) (l : list Field) :
  (∃ p, p ∈ l ∧ value p = v) ∨ absent v l.
Proof.
  induction l as [| q l [(p & Hin & Hp) | Habs]].
  - right. apply absent_nil.
  - left. exists p. split; [right; exact Hin | exact Hp].
  - destruct (decide (value q = v)) as [Hq | Hq].
    + left. exists q. split; [left | exact Hq].
    + right. apply absent_cons. auto.
Qed.

Lemma add_phone_unfold (r : RecordObj) (raw : pystr) :
  add_phone raw r =
    if phone_valid raw
    then (Ok tt, set_phones (phones r ++ [mkField raw]) r)
    else (Raise phone_error, r).
Proof.
  unfold add_phone, bind, eval, modify. rewrite Phone_init_unfold.
  destruct (phone_valid raw); reflexivity.
Qed.

Lemma first_index_split (v : pystr) (l1 l2 : list Field) (p : Field) :
  value p = v → absent v l1 → first_index v (l1 ++ p :: l2) (length l1).
Proof.
  intros Hp Habs. split.
  - exists p. split; [| exact Hp]. apply list_lookup_middle. reflexivity.
  - intros j q Hj Hq. rewrite lookup_app_l in Hq by exact Hj.
    apply Habs. eapply list_elem_of_lookup_2. exact Hq.
Qed.

(** ** [Record.edit_phone] *)

(** C2: when a stored phone has the value [old_raw] and [new_raw] does not
    pass the check of [Phone]'s constructor, [edit_phone] raises
    [ValueError] and the record, with its whole phone sequence, is left as
    it was. *)
Theorem edit_phone_invalid_new (r : RecordObj) (old_raw new_raw : pystr) :
  (∃ p, p ∈ phones r ∧ value p = old_raw) →
  phone_valid new_raw = false →
  edit_phone old_raw new_raw r = (Raise phone_error, r)
  ∧ phones (snd (edit_phone old_raw new_raw r)) = phones r.
Proof.
  intros Hex Hnew.
  destruct (first_match_split _ _ Hex) as (l1 & p & l2 & Hps & Hp & Habs).
  rewrite (edit_phone_found r old_raw new_raw l1 l2 p Hps Hp Habs), Hnew.
  split; reflexivity.
Qed.

(** C3: when no stored phone has the value [old_raw], [edit_phone] returns
    [False] whatever [new_raw] is (it is not validated, so nothing is
    raised), and the record is left as it was. *)
Theorem edit_phone_not_found (r : RecordObj) (old_raw new_raw : pystr) :
  (∀ p, p ∈ phones r → value p ≠ old_raw) →
  edit_phone old_raw new_raw r = (Ok false, r).
Proof. intros Habs. apply edit_phone_absent. exact Habs. Qed.

(** C5: when [new_raw] passes the check of [Phone]'s constructor and a
    stored phone has the value [old_raw], [edit_phone] returns [True]; the
    first such phone, at index [i], is replaced by a phone holding
    [new_raw]; the name, the length of the sequence and every other
    position are unchanged. *)
Theorem edit_phone_replaces (r : RecordObj) (old_raw new_raw : pystr) :
  phone_valid new_raw = true →
  (∃ p, p ∈ phones r ∧ value p = old_raw) →
  ∃ i r',
    edit_phone old_raw new_raw r = (Ok true, r')
    ∧ first_index old_raw (phones r) i
    ∧ phones r' !! i = Some (mkField new_raw)
    ∧ name r' = name r
    ∧ length (phones r') = length (phones r)
    ∧ ∀ j, j ≠ i → phones r' !! j = phones r !! j.
Proof.
  intros Hnew Hex.
  destruct (first_match_split _ _ Hex) as (l1 & p & l2 & Hps & Hp & Habs).
  exists (length l1), (set_phones (l1 ++ mkField new_raw :: l2) r).
  rewrite (edit_phone_found r old_raw new_raw l1 l2 p Hps Hp Habs), Hnew, Hps.
  split; [reflexivity |].
  split; [apply first_index_split; assumption |].
  split; [apply list_lookup_middle; reflexivity |].
  split; [reflexivity |].
  split; [simpl; rewrite !length_app; reflexivity |].
  intros j Hj. simpl.
  destruct (decide (j < length l1)%nat) as [Hlt | Hge].
  - rewrite !lookup_app_l by exact Hlt. reflexivity.
  - rewrite !lookup_app_r by lia.
    destruct (j - length l1)%nat as [| k] eqn:Hk; [lia | reflexivity].
Qed.

(** ** [Record.remove_phone] *)

(** C4: when a stored phone has the value [raw], [remove_phone] returns
    [True] and drops exactly the first such phone; when none has, it
    returns [False] without raising and the record is left as it was; after
    the only occurrence is removed, a second call returns [False]. *)
Theorem remove_phone_spec (r : RecordObj) (raw : pystr) :
  ((∃ p, p ∈ phones r ∧ value p = raw) →
     ∃ l1 p l2,
       phones r = l1 ++ p :: l2 ∧ value p = raw
       ∧ (∀ q, q ∈ l1 → value q ≠ raw)
       ∧ remove_phone raw r = (Ok true, mkRecord (name r) (l1 ++ l2)))
  ∧ ((∀ q, q ∈ phones r → value q ≠ raw) → remove_phone raw r = (Ok false, r))
  ∧ (∀ l1 p l2,
       phones r = l1 ++ p :: l2 → value p = raw →
       (∀ q, q ∈ l1 ++ l2 → value q ≠ raw) →
       ∃ r', remove_phone raw r = (Ok true, r')
             ∧ remove_phone raw r' = (Ok false, r')).
Proof.
  split; [| split].
  - intros Hex.
    destruct (first_match_split _ _ Hex) as (l1 & p & l2 & Hps & Hp & Habs).
    exists l1, p, l2. repeat (split; [assumption |]).
    apply remove_phone_found with p; assumption.
  - apply remove_phone_absent.
  - intros l1 p l2 Hps Hp Habs.
    exists (set_phones (l1 ++ l2) r). split.
    + apply remove_phone_found with p; [assumption .. |].
      apply (absent_app raw l1 l2). exact Habs.
    + apply remove_phone_absent. exact Habs.
Qed.

(** ** The invariant of [Record] *)

Lemma Record_init_inv (n : pystr) (r : RecordObj) : Record_init n = Ok r → inv r.
Proof.
  intros H. apply Record_init_Ok_inv in H as [Hn ->].
  split; [exact Hn | constructor].
Qed.

Lemma add_phone_inv (raw : pystr) (r : RecordObj) : inv r → inv (snd (add_phone raw r)).
Proof.
  intros [Hn Hps]. rewrite add_phone_unfold.
  destruct (phone_valid raw) eqn:Hraw; [| split; assumption].
  split; [exact Hn |]. simpl. apply Forall_app. split; [exact Hps |].
  constructor; [exact Hraw | constructor].
Qed.

Lemma remove_phone_inv (raw : pystr) (r : RecordObj) : inv r → inv (snd (remove_phone raw r)).
Proof.
  intros [Hn Hps].
  destruct (match_or_absent raw (phones r)) as [Hex | Habs].
  - destruct (first_match_split _ _ Hex) as (l1 & p & l2 & Heq & Hp & Habs).
    rewrite (remove_phone_found r raw l1 l2 p Heq Hp Habs).
    split; [exact Hn |]. simpl. rewrite Heq in Hps.
    apply Forall_app in Hps as [H1 H2]. apply Forall_cons in H2 as [_ H2].
    apply Forall_app. auto.
  - rewrite remove_phone_absent by exact Habs. split; assumption.
Qed.

Lemma edit_phone_inv (old_raw new_raw : pystr) (r : RecordObj) :
  inv r → inv (snd (edit_phone old_raw new_raw r)).
Proof.
  intros [Hn Hps].
  destruct (match_or_absent old_raw (phones r)) as [Hex | Habs].
  - destruct (first_match_split _ _ Hex) as (l1 & p & l2 & Heq & Hp & Habs).
    rewrite (edit_phone_found r old_raw new_raw l1 l2 p Heq Hp Habs).
    destruct (phone_valid new_raw) eqn:Hnew; [| split; assumption].
    split; [exact Hn |]. simpl. rewrite Heq in Hps.
    apply Forall_app in Hps as [H1 H2]. apply Forall_cons in H2 as [_ H2].
    apply Forall_app. split; [exact H1 |]. constructor; assumption.
  - rewrite edit_phone_absent by exact Habs. split; assumption.
Qed.

Lemma step_inv (r r' : RecordObj) : inv r → step r r' → inv r'.
Proof.
  intros Hinv Hstep. destruct Hstep.
  - apply add_phone_inv, Hinv.
  - apply remove_phone_inv, Hinv.
  - apply edit_phone_inv, Hinv.
Qed.

(** C10: every reachable record has a non-empty name and only phones that
    pass the check of [Phone]'s constructor; each of [add_phone],
    [remove_phone] and [edit_phone] preserves this, whether it returns or
    raises. *)
Theorem Record_invariant (r : RecordObj) :
  reachable r →
  inv r
  ∧ (∀ raw, inv (snd (add_phone raw r)))
  ∧ (∀ raw, inv (snd (remove_phone raw r)))
  ∧ (∀ old_raw new_raw, inv (snd (edit_phone old_raw new_raw r))).
Proof.
  intros Hreach.
  assert (inv r) as Hinv.
  { induction Hreach as [n r Hinit | r r' _ IH Hstep].
    - eapply Record_init_inv, Hinit.
    - eapply step_inv; [exact IH | exact Hstep]. }
  split; [exact Hinv |].
  split; [| split]; intros.
  - apply add_phone_inv, Hinv.
  - apply remove_phone_inv, Hinv.
  - apply edit_phone_inv, Hinv.
Qed.

(** ** [Record.__str__] *)

Lemma join_from_app (sep a b : pystr) (items : list pystr) :
  join_from sep (a ++ b) items = a ++ join_from sep b items.
Proof.
  revert b. induction items as [| y items IH]; intros b; simpl; [reflexivity |].
  rewrite <- (assoc_L (++)). apply IH.
Qed.

Lemma join_cons_cons (sep x y : pystr) (items : list pystr) :
  join sep (x :: y :: items) = x ++ sep ++ join sep (y :: items).
Proof. simpl. rewrite !join_from_app. reflexivity. Qed.

Lemma join_joined_with (sep : pystr) (items : list pystr) :
  join sep items = joined_with sep items.
Proof.
  induction items as [| x items IH]; [reflexivity |].
  destruct items as [| y items]; [reflexivity |].
  rewrite join_cons_cons, IH. reflexivity.
Qed.

(** C8: the string form of a record is ["Contact name: <name>, phones: "]
    followed by the stored phone values, in order, joined with ["; "]; with
    no phone it ends with ["phones: "]. *)
Theorem Record_str_spec (r : RecordObj) :
  Record_str r = string_form (value (name r)) (value <$> phones r)
  ∧ (phones r = [] →
     Record_str r = lit "Contact name: " ++ value (name r) ++ lit ", phones: ").
Proof.
  unfold Record_str, string_form. rewrite join_joined_with.
  split; [reflexivity |]. intros ->.
  change (joined_with (lit "; ") (value <$> [])) with (@nil N).
  rewrite app_nil_r. reflexivity.
Qed.

(** ** [AddressBook] *)

Lemma add_record_unfold (σ : store) (record : ref) (book : AddressBook) :
  add_record σ record book =
    (Ok tt, mkBook (<[value (name (σ record)) := record]> (data book))).
Proof. reflexivity. Qed.

Lemma delete_unfold (n : pystr) (book : AddressBook) :
  delete n book =
    match data book !! n with
    | Some _ => (Ok tt, mkBook (base.delete n (data book)))
    | None => (Ok tt, book)
    end.
Proof.
  unfold delete, bind, gets, eval, modify, ret, dict_del.
  destruct (data book !! n) as [r |] eqn:Hn.
  - rewrite bool_decide_eq_true_2 by eauto. reflexivity.
  - rewrite bool_decide_eq_false_2 by (intros [r Hr]; discriminate). reflexivity.
Qed.

(** C6: [find] after [add_record] returns a record (the very reference
    added) whose string form is that of the added record; [find] after
    [delete] returns [None]; [delete] of an absent name returns without
    raising and leaves the book as it was. *)
Theorem add_find_delete (σ : store) (book : AddressBook) :
  (∀ record, ∃ book',
      add_record σ record book = (Ok tt, book')
      ∧ ∃ found, find (value (name (σ record))) book' = (Ok (Some found), book')
                 ∧ Record_str (σ found) = Record_str (σ record))
  ∧ (∀ n, ∃ book', delete n book = (Ok tt, book') ∧ find n book' = (Ok None, book'))
  ∧ (∀ n, data book !! n = None → delete n book = (Ok tt, book)).
Proof.
  split; [| split].
  - intros record. eexists. split; [apply add_record_unfold |].
    exists record. split; [| reflexivity].
    unfold find, gets. simpl. rewrite lookup_insert_eq. reflexivity.
  - intros n. rewrite delete_unfold.
    destruct (data book !! n) as [r |] eqn:Hn; eexists; (split; [reflexivity |]).
    + unfold find, gets. simpl. rewrite lookup_delete_eq. reflexivity.
    + unfold find, gets. rewrite Hn. reflexivity.
  - intros n Hn. rewrite delete_unfold, Hn. reflexivity.
Qed.

(** C7: when the book holds a record under a name, [add_record] of a
    different record with the same name raises nothing and replaces the
    entry: [find] then returns the new reference, whose object is the one
    that was added, and every other entry is as before. *)
Theorem add_record_overwrites (σ : store) (book : AddressBook) (n : pystr) (r1 r2 : ref) :
  data book !! n = Some r1 →
  r2 ≠ r1 →
  value (name (σ r2)) = n →
  ∃ book',
    find n book = (Ok (Some r1), book)
    ∧ add_record σ r2 book = (Ok tt, book')
    ∧ find n book' = (Ok (Some r2), book')
    ∧ find n book' ≠ (Ok (Some r1), book')
    ∧ ∀ n', n' ≠ n → data book' !! n' = data book !! n'.
Proof.
  intros Hr1 Hne Hn. eexists.
  split; [unfold find, gets; rewrite Hr1; reflexivity |].
  split; [apply add_record_unfold |]. rewrite Hn.
  assert (∀ b, find n {| data := <[n:=r2]> b |} = (Ok (Some r2), {| data := <[n:=r2]> b |})) as Hfind.
  { intros b. unfold find, gets. simpl. rewrite lookup_insert_eq. reflexivity. }
  split; [apply Hfind |].
  split; [rewrite Hfind; congruence |].
  intros n' Hn'. simpl. rewrite lookup_insert_ne by congruence. reflexivity.
Qed.

(** A record is shared, not copied: a method called through a reference
    changes the object every holder of the reference sees, the book
    included, and no other object. *)
Lemma call_updates_shared {A} (σ : store) (r : ref) (m : M RecordObj A) :
  snd (call r m σ) r = snd (m (σ r))
  ∧ ∀ r', r' ≠ r → snd (call r m σ) r' = σ r'.
Proof.
  unfold call. destruct (m (σ r)) as [res o]. simpl. split.
  - apply fn_lookup_insert.
  - intros r' Hr'. apply fn_lookup_insert_ne. congruence.
Qed.

(** * The module's sample run *)

Ltac solve_absent :=
  repeat (apply absent_cons; split; [vm_compute; discriminate |]);
  apply absent_nil.

Ltac solve_present p :=
  exists p; split; [repeat (first [left | right]) | reflexivity].

(** [john] is built as the module builds it. *)
Example john_built :
  Record_init (lit "John") = Ok (mkRecord (mkField (lit "John")) [])
  ∧ snd (bind (add_phone (lit "1234567890")) (λ _, add_phone (lit "5555555555"))
           (mkRecord (mkField (lit "John")) [])) = john.
Proof. split; reflexivity. Qed.

(** The lines the module prints. *)
Example printed_lines :
  Record_str john = lit "Contact name: John, phones: 1234567890; 5555555555"
  ∧ Record_str jane = lit "Contact name: Jane, phones: 9876543210"
  ∧ Record_str (snd (edit_phone (lit "1234567890") (lit "1112223333") john))
    = lit "Contact name: John, phones: 1112223333; 5555555555"
  ∧ find_phone (lit "5555555555") john
    = (Ok (Some (mkField (lit "5555555555"))), john)
  ∧ lit "John" ++ lit ": " ++ Field_str (mkField (lit "5555555555"))
    = lit "John: 5555555555"
  ∧ find_phone (lit "0000000000") john = (Ok None, john).
Proof. repeat split; vm_compute; reflexivity. Qed.

(** The book after the two [add_record] calls, and after [delete("Jane")]. *)
Example book_lookups :
  find (lit "John") sample_book = (Ok (Some 1%positive), sample_book)
  ∧ find (lit "Jane") sample_book = (Ok (Some 2%positive), sample_book)
  ∧ fst (find (lit "Jane") (snd (delete (lit "Jane") sample_book))) = Ok None
  ∧ fst (find (lit "John") (snd (delete (lit "Jane") sample_book))) = Ok (Some 1%positive).
Proof. repeat split; vm_compute; reflexivity. Qed.

(** * The theorems at the sample data *)

Lemma edit_phone_invalid_new_witness :
  edit_phone (lit "1234567890") (lit "12345") john = (Raise phone_error, john)
  ∧ phones (snd (edit_phone (lit "1234567890") (lit "12345") john)) = phones john.
Proof.
  apply (edit_phone_invalid_new john (lit "1234567890") (lit "12345")).
  - solve_present (mkField (lit "1234567890")).
  - reflexivity.
Defined.

Lemma edit_phone_not_found_witness :
  edit_phone (lit "not-present") (lit "12345") john = (Ok false, john).
Proof.
  apply (edit_phone_not_found john (lit "not-present") (lit "12345")).
  change (absent (lit "not-present") (phones john)). solve_absent.
Defined.

Lemma edit_phone_replaces_witness :
  ∃ i r',
    edit_phone (lit "1234567890") (lit "1112223333") john = (Ok true, r')
    ∧ first_index (lit "1234567890") (phones john) i
    ∧ phones r' !! i = Some (mkField (lit "1112223333"))
    ∧ name r' = name john
    ∧ length (phones r') = length (phones john)
    ∧ ∀ j, j ≠ i → phones r' !! j = phones john !! j.
Proof.
  apply (edit_phone_replaces john (lit "1234567890") (lit "1112223333")).
  - reflexivity.
  - solve_present (mkField (lit "1234567890")).
Defined.

Lemma remove_phone_spec_witness :
  (∃ l1 p l2,
      phones john = l1 ++ p :: l2 ∧ value p = lit "5555555555"
      ∧ (∀ q, q ∈ l1 → value q ≠ lit "5555555555")
      ∧ remove_phone (lit "5555555555") john = (Ok true, mkRecord (name john) (l1 ++ l2)))
  ∧ remove_phone (lit "0000000000") john = (Ok false, john)
  ∧ ∃ r', remove_phone (lit "5555555555") john = (Ok true, r')
          ∧ remove_phone (lit "5555555555") r' = (Ok false, r').
Proof.
  split; [| split].
  - apply (proj1 (remove_phone_spec john (lit "5555555555"))).
    solve_present (mkField (lit "5555555555")).
  - apply (proj1 (proj2 (remove_phone_spec john (lit "0000000000")))).
    change (absent (lit "0000000000") (phones john)). solve_absent.
  - apply (proj2 (proj2 (remove_phone_spec john (lit "5555555555")))
             [mkField (lit "1234567890")] (mkField (lit "5555555555")) []).
    + reflexivity.
    + reflexivity.
    + change (absent (lit "5555555555") [mkField (lit "1234567890")]). solve_absent.
Defined.

Lemma john_reachable : reachable john.
Proof.
  apply (reachable_step (mkRecord (mkField (lit "John")) [mkField (lit "1234567890")])).
  - apply (reachable_step (mkRecord (mkField (lit "John")) [])).
    + apply (reachable_init (lit "John")). reflexivity.
    + exact (step_add_phone (lit "1234567890") (mkRecord (mkField (lit "John")) [])).
  - exact (step_add_phone (lit "5555555555")
             (mkRecord (mkField (lit "John")) [mkField (lit "1234567890")])).
Defined.

Lemma Record_invariant_witness :
  inv john
  ∧ (∀ raw, inv (snd (add_phone raw john)))
  ∧ (∀ raw, inv (snd (remove_phone raw john)))
  ∧ (∀ old_raw new_raw, inv (snd (edit_phone old_raw new_raw john))).
Proof. apply (Record_invariant john). exact john_reachable. Defined.

Lemma Record_str_spec_witness :
  Record_str (mkRecord (mkField (lit "John")) [])
  = lit "Contact name: " ++ lit "John" ++ lit ", phones: ".
Proof.
  apply (proj2 (Record_str_spec (mkRecord (mkField (lit "John")) []))).
  reflexivity.
Defined.

Lemma add_find_delete_witness :
  delete (lit "Nobody") sample_book = (Ok tt, sample_book).
Proof.
  apply (proj2 (proj2 (add_find_delete sample_store sample_book))).
  vm_compute. reflexivity.
Defined.

Lemma add_record_overwrites_witness :
  ∃ book',
    find (lit "John") sample_book = (Ok (Some 1%positive), sample_book)
    ∧ add_record sample_store 3 sample_book = (Ok tt, book')
    ∧ find (lit "John") book' = (Ok (Some 3%positive), book')
    ∧ find (lit "John") book' ≠ (Ok (Some 1%positive), book')
    ∧ ∀ n', n' ≠ lit "John" → data book' !! n' = data sample_book !! n'.
Proof.
  apply (add_record_overwrites sample_store sample_book (lit "John") 1 3).
  - vm_compute. reflexivity.
  - discriminate.
  - reflexivity.
Defined.

(** * Further properties of the methods *)

(** ** Counting the stored phones *)

Lemma occurrences_cons (v : pystr) (p : Field) (l : list Field) :
  occurrences v (p :: l) =
    if decide (value p = v) then S (occurrences v l) else occurrences v l.
Proof.
  unfold occurrences. destruct (decide (value p = v)) as [H | H].
  - rewrite filter_cons_True by exact H. reflexivity.
  - rewrite filter_cons_False by exact H. reflexivity.
Qed.

Lemma occurrences_app (v : pystr) (l1 l2 : list Field) :
  occurrences v (l1 ++ l2) = (occurrences v l1 + occurrences v l2)%nat.
Proof. unfold occurrences. rewrite filter_app, length_app. reflexivity. Qed.

Lemma absent_occurrences (v : pystr) (l : list Field) :
  absent v l ↔ occurrences v l = 0%nat.
Proof.
  induction l as [| p l IH].
  - split; [reflexivity | intros _; apply absent_nil].
  - rewrite absent_cons, occurrences_cons, IH.
    destruct (decide (value p = v)); split.
    + intros [H _]. contradiction.
    + discriminate.
    + intros [_ H]. exact H.
    + auto.
Qed.

Lemma present_occurrences (v : pystr) (l : list Field) :
  (∃ p, p ∈ l ∧ value p = v) ↔ (0 < occurrences v l)%nat.
Proof.
  split.
  - intros Hex. destruct (occurrences v l) eqn:Hocc; [| lia].
    apply absent_occurrences in Hocc. destruct Hex as (p & Hin & Hp).
    exfalso. exact (Hocc p Hin Hp).
  - intros Hpos. destruct (match_or_absent v l) as [Hex | Habs]; [exact Hex |].
    apply absent_occurrences in Habs. lia.
Qed.

Lemma occurrences_split (v : pystr) (l1 l2 : list Field) (p : Field) :
  value p = v → absent v l1 →
  occurrences v (l1 ++ p :: l2) = S (occurrences v l2).
Proof.
  intros Hp Habs. apply absent_occurrences in Habs.
  rewrite occurrences_app, occurrences_cons, Habs, decide_True by exact Hp.
  reflexivity.
Qed.

(** ** [Record.find_phone] *)

Lemma find_phone_loop_absent (self : RecordObj) (v : pystr) (rest : list Field) :
  absent v rest → find_phone_loop v rest self = (Ok None, self).
Proof.
  induction rest as [| q rest IH]; intros Habs; simpl; [reflexivity |].
  apply absent_cons in Habs as [Hq Habs].
  rewrite bool_decide_eq_false_2 by assumption. auto.
Qed.

Lemma find_phone_loop_found (self : RecordObj) (v : pystr) (l1 l2 : list Field) (p : Field) :
  absent v l1 → value p = v →
  find_phone_loop v (l1 ++ p :: l2) self = (Ok (Some p), self).
Proof.
  intros Habs Hp. induction l1 as [| q l1 IH]; simpl.
  - rewrite bool_decide_eq_true_2 by assumption. reflexivity.
  - apply absent_cons in Habs as [Hq Habs].
    rewrite bool_decide_eq_false_2 by assumption. auto.
Qed.

Lemma find_phone_absent (r : RecordObj) (raw : pystr) :
  absent raw (phones r) → find_phone raw r = (Ok None, r).
Proof. intros H. unfold find_phone, bind, gets. apply find_phone_loop_absent, H. Qed.

Lemma find_phone_present (r : RecordObj) (raw : pystr) :
  (∃ p, p ∈ phones r ∧ value p = raw) →
  find_phone raw r = (Ok (Some (mkField raw)), r).
Proof.
  intros Hex.
  destruct (first_match_split _ _ Hex) as (l1 & p & l2 & Hps & Hp & Habs).
  unfold find_phone, bind, gets. rewrite Hps.
  rewrite find_phone_loop_found by assumption.
  destruct p as [v]. simpl in Hp. rewrite Hp. reflexivity.
Qed.

Lemma find_phone_by_count (r : RecordObj) (raw : pystr) :
  find_phone raw r =
    (Ok (if decide (0 < occurrences raw (phones r))%nat
         then Some (mkField raw) else None), r).
Proof.
  destruct (decide (0 < occurrences raw (phones r))%nat) as [Hpos | Hzero].
  - apply find_phone_present, present_occurrences, Hpos.
  - apply find_phone_absent, absent_occurrences. lia.
Qed.

(** X2: [find_phone] never raises and never changes the record; it returns
    a phone holding [raw] when some stored phone has that value, and [None]
    when none has. *)
Theorem find_phone_spec (r : RecordObj) (raw : pystr) :
  find_phone raw r =
    (Ok (if decide (0 < occurrences raw (phones r))%nat
         then Some (mkField raw) else None), r).
Proof. apply find_phone_by_count. Qed.

(** ** [Record.add_phone] *)

(** X1: [add_phone] appends a phone holding [raw] after the stored ones,
    leaving them and the name as they were, exactly when [raw] has ten
    characters that [str.isdigit] accepts; for any other [raw] it raises
    [ValueError] and the record is unchanged. *)
Theorem add_phone_spec (r : RecordObj) (raw : pystr) :
  (length raw = 10%nat ∧ all_isdigit raw →
     add_phone raw r = (Ok tt, mkRecord (name r) (phones r ++ [mkField raw])))
  ∧ (¬ (length raw = 10%nat ∧ all_isdigit raw) →
     add_phone raw r = (Raise phone_error, r)).
Proof.
  rewrite <- phone_valid_true, add_phone_unfold.
  destruct (phone_valid raw); split; intros H; try reflexivity.
  - exfalso. apply H. reflexivity.
  - discriminate H.
Qed.

Lemma add_phone_valid (r : RecordObj) (raw : pystr) :
  phone_valid raw = true →
  add_phone raw r = (Ok tt, set_phones (phones r ++ [mkField raw]) r).
Proof. intros H. rewrite add_phone_unfold, H. reflexivity. Qed.

(** X3: a phone that was added is found: after a successful
    [add_phone(raw)], [find_phone(raw)] returns a phone holding [raw]. *)
Theorem add_then_find (r : RecordObj) (raw : pystr) :
  phone_valid raw = true →
  ∃ r', add_phone raw r = (Ok tt, r')
        ∧ find_phone raw r' = (Ok (Some (mkField raw)), r').
Proof.
  intros Hv. eexists. split; [apply add_phone_valid, Hv |].
  apply find_phone_present. exists (mkField raw). split; [| reflexivity].
  simpl. apply elem_of_app. right. left.
Qed.

(** X4: adding a phone the record does not hold and removing it again
    gives back the record as it was. *)
Theorem add_then_remove (r : RecordObj) (raw : pystr) :
  phone_valid raw = true →
  (∀ q, q ∈ phones r → value q ≠ raw) →
  ∃ r', add_phone raw r = (Ok tt, r') ∧ remove_phone raw r' = (Ok true, r).
Proof.
  intros Hv Habs. eexists. split; [apply add_phone_valid, Hv |].
  rewrite (remove_phone_found _ raw (phones r) [] (mkField raw));
    [| reflexivity | reflexivity | exact Habs].
  simpl. rewrite app_nil_r. destruct r; reflexivity.
Qed.

(** X5: after a phone is added that the record already holds, [remove_phone]
    drops the earlier occurrence, not the one just added: the value moves to
    the end of the sequence. *)
Theorem add_then_remove_duplicate (r : RecordObj) (raw : pystr)
    (l1 l2 : list Field) (p : Field) :
  phone_valid raw = true →
  phones r = l1 ++ p :: l2 → value p = raw →
  (∀ q, q ∈ l1 → value q ≠ raw) →
  ∃ r', add_phone raw r = (Ok tt, r')
        ∧ remove_phone raw r' = (Ok true, mkRecord (name r) (l1 ++ l2 ++ [mkField raw])).
Proof.
  intros Hv Hps Hp Habs. eexists. split; [apply add_phone_valid, Hv |].
  rewrite (remove_phone_found _ raw l1 (l2 ++ [mkField raw]) p);
    [reflexivity | | exact Hp | exact Habs].
  simpl. rewrite Hps, <- (assoc_L (++)). reflexivity.
Qed.

(** ** Counting across [remove_phone] and [edit_phone] *)

(** X6: [remove_phone(raw)] returns [True] exactly when [raw] is stored at
    least once; it lowers the number of stored phones with the value [raw]
    by one (never below zero) and leaves the number of phones with any
    other value as it was. *)
Theorem remove_phone_occurrences (r : RecordObj) (raw raw' : pystr) :
  fst (remove_phone raw r) = Ok (bool_decide (0 < occurrences raw (phones r))%nat)
  ∧ occurrences raw' (phones (snd (remove_phone raw r))) =
      if decide (raw' = raw) then pred (occurrences raw (phones r))
      else occurrences raw' (phones r).
Proof.
  destruct (match_or_absent raw (phones r)) as [Hex | Habs].
  - destruct (first_match_split _ _ Hex) as (l1 & p & l2 & Hps & Hp & Habs).
    rewrite (remove_phone_found r raw l1 l2 p Hps Hp Habs). simpl.
    rewrite Hps, (occurrences_split raw l1 l2 p Hp Habs).
    split; [rewrite bool_decide_eq_true_2 by lia; reflexivity |].
    rewrite !occurrences_app, occurrences_cons.
    destruct (decide (raw' = raw)) as [-> | Hne].
    + apply absent_occurrences in Habs. rewrite Habs. reflexivity.
    + rewrite decide_False by congruence. reflexivity.
  - rewrite (remove_phone_absent r raw Habs). simpl.
    apply absent_occurrences in Habs. rewrite Habs.
    split; [rewrite bool_decide_eq_false_2 by lia; reflexivity |].
    destruct (decide (raw' = raw)) as [-> | Hne]; [exact Habs | reflexivity].
Qed.

(** X7: after a successful [edit_phone(old_raw, new_raw)] the new value is
    found; for a different new value, the old one is still found exactly
    when it was stored more than once, since only its first occurrence is
    replaced. *)
Theorem edit_then_find (r : RecordObj) (old_raw new_raw : pystr) :
  phone_valid new_raw = true →
  (0 < occurrences old_raw (phones r))%nat →
  ∃ r', edit_phone old_raw new_raw r = (Ok true, r')
        ∧ find_phone new_raw r' = (Ok (Some (mkField new_raw)), r')
        ∧ (new_raw ≠ old_raw →
           find_phone old_raw r' =
             (Ok (if decide (1 < occurrences old_raw (phones r))%nat
                  then Some (mkField old_raw) else None), r')).
Proof.
  intros Hv Hpos. apply present_occurrences in Hpos.
  destruct (first_match_split _ _ Hpos) as (l1 & p & l2 & Hps & Hp & Habs).
  eexists. rewrite (edit_phone_found r old_raw new_raw l1 l2 p Hps Hp Habs), Hv.
  split; [reflexivity |]. split.
  - apply find_phone_present. exists (mkField new_raw).
    split; [| reflexivity]. simpl. apply elem_of_app. right. left.
  - intros Hne. rewrite find_phone_by_count. simpl.
    rewrite Hps, (occurrences_split old_raw l1 l2 p Hp Habs).
    rewrite occurrences_app, occurrences_cons. simpl.
    rewrite (decide_False (P := new_raw = old_raw)) by exact Hne.
    apply absent_occurrences in Habs. rewrite Habs. simpl.
    destruct (decide (0 < occurrences old_raw l2)%nat),
             (decide (1 < S (occurrences old_raw l2))%nat);
      reflexivity || lia.
Qed.

Lemma inv_stored_valid (r : RecordObj) (p : Field) :
  inv r → p ∈ phones r → phone_valid (value p) = true.
Proof.
  intros [_ Hall] Hin. rewrite Forall_forall in Hall. apply Hall, Hin.
Qed.

(** X8: in a record that satisfies the invariant, editing a stored phone to
    its own value returns [True] and leaves the record as it was. *)
Theorem edit_phone_same (r : RecordObj) (raw : pystr) :
  inv r →
  (∃ p, p ∈ phones r ∧ value p = raw) →
  edit_phone raw raw r = (Ok true, r).
Proof.
  intros Hinv Hex. assert (phone_valid raw = true) as Hv.
  { destruct Hex as (p & Hin & <-). eapply inv_stored_valid; eassumption. }
  destruct (first_match_split _ _ Hex) as (l1 & p & l2 & Hps & Hp & Habs).
  rewrite (edit_phone_found r raw raw l1 l2 p Hps Hp Habs), Hv.
  destruct r as [nm ps], p as [v]. simpl in *. subst. reflexivity.
Qed.

(** X9: in a record that satisfies the invariant, an edit to a value the
    record does not hold is undone by the opposite edit. *)
Theorem edit_phone_round_trip (r : RecordObj) (old_raw new_raw : pystr) :
  inv r →
  (∃ p, p ∈ phones r ∧ value p = old_raw) →
  phone_valid new_raw = true →
  (∀ q, q ∈ phones r → value q ≠ new_raw) →
  ∃ r', edit_phone old_raw new_raw r = (Ok true, r')
        ∧ edit_phone new_raw old_raw r' = (Ok true, r).
Proof.
  intros Hinv Hex Hv Hnew. assert (phone_valid old_raw = true) as Hold.
  { destruct Hex as (p & Hin & <-). eapply inv_stored_valid; eassumption. }
  destruct (first_match_split _ _ Hex) as (l1 & p & l2 & Hps & Hp & Habs).
  eexists. rewrite (edit_phone_found r old_raw new_raw l1 l2 p Hps Hp Habs), Hv.
  split; [reflexivity |].
  erewrite (edit_phone_found _ new_raw old_raw l1 l2 (mkField new_raw));
    [| reflexivity | reflexivity |].
  - rewrite Hold. destruct r as [nm ps], p as [v]. simpl in *. subst. reflexivity.
  - change (absent new_raw (phones r)) in Hnew. rewrite Hps in Hnew.
    apply absent_app in Hnew as [H1 _]. exact H1.
Qed.

(** ** What the methods leave alone *)

Lemma step_name (r r' : RecordObj) : step r r' → name r' = name r.
Proof.
  intros Hstep. destruct Hstep as [raw r | raw r | old_raw new_raw r].
  - rewrite add_phone_unfold. destruct (phone_valid raw); reflexivity.
  - destruct (match_or_absent raw (phones r)) as [Hex | Habs].
    + destruct (first_match_split _ _ Hex) as (l1 & p & l2 & Hps & Hp & Habs).
      rewrite (remove_phone_found r raw l1 l2 p Hps Hp Habs). reflexivity.
    + rewrite (remove_phone_absent r raw Habs). reflexivity.
  - destruct (match_or_absent old_raw (phones r)) as [Hex | Habs].
    + destruct (first_match_split _ _ Hex) as (l1 & p & l2 & Hps & Hp & Habs).
      rewrite (edit_phone_found r old_raw new_raw l1 l2 p Hps Hp Habs).
      destruct (phone_valid new_raw); reflexivity.
    + rewrite (edit_phone_absent r old_raw new_raw Habs). reflexivity.
Qed.

(** X10: no method of [Record] changes the name, whether it returns or
    raises, and [find_phone] changes nothing at all. *)
Theorem methods_keep_name (r : RecordObj) :
  (∀ raw, name (snd (add_phone raw r)) = name r)
  ∧ (∀ raw, name (snd (remove_phone raw r)) = name r)
  ∧ (∀ old_raw new_raw, name (snd (edit_phone old_raw new_raw r)) = name r)
  ∧ (∀ raw, snd (find_phone raw r) = r).
Proof.
  split; [| split; [| split]]; intros.
  - apply step_name. constructor.
  - apply step_name. constructor.
  - apply step_name. constructor.
  - rewrite find_phone_by_count. reflexivity.
Qed.

(** ** Composing the operations of [AddressBook] *)

Lemma book_eta (book : AddressBook) : mkBook (data book) = book.
Proof. destruct book; reflexivity. Qed.

(** X11: registering a record under a name the book does not hold and
    deleting that name gives back the book as it was. *)
Theorem add_record_then_delete (σ : store) (book : AddressBook) (r : ref) :
  data book !! value (name (σ r)) = None →
  ∃ book', add_record σ r book = (Ok tt, book')
           ∧ delete (value (name (σ r))) book' = (Ok tt, book).
Proof.
  intros Hnone. eexists. split; [apply add_record_unfold |].
  rewrite delete_unfold. simpl. rewrite lookup_insert_eq.
  rewrite delete_insert_id by exact Hnone. rewrite book_eta. reflexivity.
Qed.

(** X12: [delete] never raises, touches no entry under another name, and a
    second [delete] of the same name changes nothing more. *)
Theorem delete_frame (book : AddressBook) (n : pystr) :
  ∃ book', delete n book = (Ok tt, book')
           ∧ (∀ n', n' ≠ n → data book' !! n' = data book !! n')
           ∧ delete n book' = (Ok tt, book').
Proof.
  rewrite delete_unfold. destruct (data book !! n) as [r |] eqn:Hn.
  - eexists. split; [reflexivity |]. split.
    + intros n' Hn'. simpl. rewrite lookup_delete_ne by congruence. reflexivity.
    + rewrite delete_unfold. simpl. rewrite lookup_delete_eq. reflexivity.
  - exists book. split; [reflexivity |]. split; [reflexivity |].
    rewrite delete_unfold, Hn. reflexivity.
Qed.

(** X13: the last write wins: registering two records that carry the same
    name, one after the other, leaves the book as registering the second
    one alone does. *)
Theorem add_record_last_wins (σ : store) (book : AddressBook) (r1 r2 : ref) :
  value (name (σ r1)) = value (name (σ r2)) →
  snd (add_record σ r2 (snd (add_record σ r1 book))) = snd (add_record σ r2 book).
Proof.
  intros Hn. rewrite !add_record_unfold. simpl.
  rewrite Hn, insert_insert_eq. reflexivity.
Qed.

(** ** The book and the names of its records *)

Lemma book_wf_empty (σ : store) : book_wf σ (mkBook ∅).
Proof. intros n r Hn. simpl in Hn. rewrite lookup_empty in Hn. discriminate. Qed.

Lemma book_wf_add_record (σ : store) (book : AddressBook) (r : ref) :
  book_wf σ book → book_wf σ (snd (add_record σ r book)).
Proof.
  intros Hwf n r' Hn. rewrite add_record_unfold in Hn. simpl in Hn.
  destruct (decide (value (name (σ r)) = n)) as [<- | Hne].
  - rewrite lookup_insert_eq in Hn. congruence.
  - rewrite lookup_insert_ne in Hn by exact Hne. apply Hwf, Hn.
Qed.

Lemma book_wf_delete (σ : store) (book : AddressBook) (n : pystr) :
  book_wf σ book → book_wf σ (snd (delete n book)).
Proof.
  intros Hwf n' r Hn'. rewrite delete_unfold in Hn'.
  destruct (data book !! n) eqn:Hn; simpl in Hn'; [| apply Hwf, Hn'].
  destruct (decide (n = n')) as [<- | Hne].
  - rewrite lookup_delete_eq in Hn'. discriminate.
  - rewrite lookup_delete_ne in Hn' by exact Hne. apply Hwf, Hn'.
Qed.

Lemma book_wf_step (σ : store) (book : AddressBook) (r : ref) (o' : RecordObj) :
  book_wf σ book → step (σ r) o' → book_wf (<[r := o']> σ) book.
Proof.
  intros Hwf Hstep n r' Hn. destruct (decide (r = r')) as [<- | Hne].
  - rewrite fn_lookup_insert, (step_name _ _ Hstep). apply Hwf, Hn.
  - rewrite fn_lookup_insert_ne by exact Hne. apply Hwf, Hn.
Qed.

(** X14: a book built by its methods files every record under the name the
    record carries: this holds of the empty book, and [add_record],
    [delete] and every mutation of a record through [add_phone],
    [remove_phone] or [edit_phone] (returning or raising) preserve it. *)
Theorem book_wf_preserved (σ : store) (book : AddressBook) :
  book_wf σ (mkBook ∅)
  ∧ (book_wf σ book →
       (∀ r, book_wf σ (snd (add_record σ r book)))
       ∧ (∀ n, book_wf σ (snd (delete n book)))
       ∧ (∀ r o', step (σ r) o' → book_wf (<[r := o']> σ) book)).
Proof.
  split; [apply book_wf_empty |]. intros Hwf.
  split; [| split]; intros.
  - apply book_wf_add_record, Hwf.
  - apply book_wf_delete, Hwf.
  - apply book_wf_step; assumption.
Qed.


(** ** The string form across the methods *)

Lemma join_from_snoc (sep acc x : pystr) (items : list pystr) :
  join_from sep acc (items ++ [x]) = join_from sep acc items ++ sep ++ x.
Proof.
  revert acc. induction items as [| y items IH]; intros acc; simpl.
  - reflexivity.
  - apply IH.
Qed.

Lemma join_snoc (sep x : pystr) (items : list pystr) :
  join sep (items ++ [x]) =
    match items with
    | [] => x
    | _ :: _ => join sep items ++ sep ++ x
    end.
Proof. destruct items as [| y items]; [reflexivity |]. apply join_from_snoc. Qed.

(** X16: a successful [add_phone(raw)] extends the string form of the
    record at its end: by [raw] when the record held no phone, and by
    ["; "] and [raw] otherwise. *)
Theorem Record_str_add_phone (r : RecordObj) (raw : pystr) :
  phone_valid raw = true →
  Record_str (snd (add_phone raw r)) =
    Record_str r ++ match phones r with
                    | [] => raw
                    | _ :: _ => lit "; " ++ raw
                    end.
Proof.
  intros Hv. rewrite add_phone_valid by exact Hv.
  unfold Record_str, set_phones. cbn [snd name phones].
  rewrite fmap_app. change (value <$> [mkField raw]) with [raw].
  rewrite join_snoc. destruct (phones r) as [| p ps].
  - change (join (lit "; ") (value <$> [])) with (@nil N).
    rewrite app_nil_r. cbn [fmap list_fmap]. rewrite <- !(assoc_L (++)). reflexivity.
  - set (j := join (lit "; ") (value <$> p :: ps)).
    rewrite <- !(assoc_L (++)). reflexivity.
Qed.

(** The string form names the record: the pieces of the form are cut at the
    last comma, which no phone and no separator contains. *)

Lemma split_at_last (c : N) (a1 a2 t1 t2 : pystr) :
  c ∉ t1 → c ∉ t2 → a1 ++ c :: t1 = a2 ++ c :: t2 → a1 = a2 ∧ t1 = t2.
Proof.
  intros H1 H2. revert a2. induction a1 as [| x a1 IH]; intros [| y a2] Heq;
    simpl in Heq.
  - injection Heq as ->. auto.
  - injection Heq as <- ->. exfalso. apply H1, elem_of_app. right. left.
  - injection Heq as -> <-. exfalso. apply H2, elem_of_app. right. left.
  - injection Heq as -> Heq. destruct (IH _ Heq) as [-> ->]. auto.
Qed.

Lemma joined_with_cons (sep x : pystr) (items : list pystr) :
  joined_with sep (x :: items) =
    x ++ match items with
         | [] => []
         | _ :: _ => sep ++ joined_with sep items
         end.
Proof. destruct items; simpl; [rewrite app_nil_r |]; reflexivity. Qed.

Lemma not_in_joined_with (c : N) (sep : pystr) (items : list pystr) :
  c ∉ sep → Forall (λ x, c ∉ x) items → c ∉ joined_with sep items.
Proof.
  intros Hsep Hall. induction Hall as [| x items Hx Hall IH].
  - apply not_elem_of_nil.
  - rewrite joined_with_cons. apply not_elem_of_app. split; [exact Hx |].
    destruct items; [apply not_elem_of_nil |].
    apply not_elem_of_app. auto.
Qed.

Lemma joined_with_inj (sep : pystr) (k : nat) (l1 l2 : list pystr) :
  sep ≠ [] → (0 < k)%nat →
  Forall (λ x, length x = k) l1 → Forall (λ x, length x = k) l2 →
  joined_with sep l1 = joined_with sep l2 → l1 = l2.
Proof.
  intros Hsep Hk H1. revert l2.
  induction H1 as [| x1 l1 Hx1 H1 IH]; intros l2 H2 Heq; destruct H2 as [| x2 l2 Hx2 H2].
  - reflexivity.
  - rewrite joined_with_cons in Heq. apply (f_equal length) in Heq.
    simpl in Heq. rewrite length_app in Heq. lia.
  - rewrite joined_with_cons in Heq. apply (f_equal length) in Heq.
    simpl in Heq. rewrite length_app in Heq. lia.
  - rewrite !joined_with_cons in Heq.
    apply app_inj_1 in Heq as [-> Heq]; [| congruence].
    f_equal. destruct l1 as [| y1 l1], l2 as [| y2 l2].
    + reflexivity.
    + exfalso. apply (f_equal length) in Heq. simpl in Heq.
      rewrite length_app in Heq. destruct sep; [contradiction | simpl in Heq; lia].
    + exfalso. apply (f_equal length) in Heq. simpl in Heq.
      rewrite length_app in Heq. destruct sep; [contradiction | simpl in Heq; lia].
    + apply app_inv_head in Heq. apply IH; assumption.
Qed.

Lemma value_fmap_inj (l1 l2 : list Field) : value <$> l1 = value <$> l2 → l1 = l2.
Proof.
  revert l2. induction l1 as [| [v1] l1 IH]; intros [| [v2] l2] Heq;
    try discriminate; [reflexivity |].
  simpl in Heq. injection Heq as -> Heq. f_equal. apply IH, Heq.
Qed.

Lemma valid_phone_no_comma (v : pystr) : phone_valid v = true → 44 ∉ v.
Proof.
  intros Hv. apply phone_valid_true in Hv as [_ Hall]. intros Hin.
  unfold all_isdigit in Hall. rewrite Forall_forall in Hall.
  specialize (Hall _ Hin). vm_compute in Hall. discriminate Hall.
Qed.

Lemma valid_phone_length (v : pystr) : phone_valid v = true → length v = 10%nat.
Proof. intros Hv. apply phone_valid_true in Hv as [Hlen _]. exact Hlen. Qed.

(** X17: the string form identifies the record: two records that satisfy
    the invariant and have the same string form have the same name and the
    same phones, in the same order. *)
Theorem Record_str_injective (r1 r2 : RecordObj) :
  inv r1 → inv r2 → Record_str r1 = Record_str r2 → r1 = r2.
Proof.
  intros [_ Hps1] [_ Hps2] Heq. unfold Record_str in Heq.
  rewrite !join_joined_with in Heq. apply app_inv_head in Heq.
  change (lit ", phones: ") with (44 :: lit " phones: ") in Heq.
  assert (∀ r, Forall (λ p, phone_valid (value p) = true) (phones r) →
               44 ∉ lit " phones: " ++ joined_with (lit "; ") (value <$> phones r))
    as Hnc.
  { intros r Hps. apply not_elem_of_app. split.
    - vm_compute. intros Hin. repeat (apply elem_of_cons in Hin as [Hin | Hin];
        [discriminate Hin |]). inversion Hin.
    - apply not_in_joined_with.
      + intros Hin. repeat (apply elem_of_cons in Hin as [Hin | Hin];
          [discriminate Hin |]). inversion Hin.
      + apply Forall_fmap. eapply Forall_impl; [exact Hps |].
        intros p Hp. apply valid_phone_no_comma, Hp. }
  apply split_at_last in Heq as [Hname Heq]; [| apply Hnc; assumption ..].
  apply app_inv_head in Heq.
  apply (joined_with_inj (lit "; ") 10) in Heq; [| discriminate | lia | |].
  - apply value_fmap_inj in Heq.
    destruct r1 as [[n1] ps1], r2 as [[n2] ps2]. simpl in *. congruence.
  - apply Forall_fmap. eapply Forall_impl; [exact Hps1 |].
    intros p Hp. apply valid_phone_length, Hp.
  - apply Forall_fmap. eapply Forall_impl; [exact Hps2 |].
    intros p Hp. apply valid_phone_length, Hp.
Qed.

(** * The further properties at the sample data *)

Lemma john_inv : inv john.
Proof. split; [discriminate | repeat constructor]. Defined.

Lemma add_phone_spec_witness :
  add_phone (lit "1112223333") john
  = (Ok tt, mkRecord (name john) (phones john ++ [mkField (lit "1112223333")]))
  ∧ add_phone (lit "12345") john = (Raise phone_error, john).
Proof.
  split.
  - apply (proj1 (add_phone_spec john (lit "1112223333"))).
    split; [reflexivity | repeat constructor].
  - apply (proj2 (add_phone_spec john (lit "12345"))).
    intros [Hlen _]. vm_compute in Hlen. discriminate Hlen.
Defined.

Lemma add_then_find_witness :
  ∃ r', add_phone (lit "1112223333") john = (Ok tt, r')
        ∧ find_phone (lit "1112223333") r' = (Ok (Some (mkField (lit "1112223333"))), r').
Proof. apply (add_then_find john (lit "1112223333")). reflexivity. Defined.

Lemma add_then_remove_witness :
  ∃ r', add_phone (lit "1112223333") john = (Ok tt, r')
        ∧ remove_phone (lit "1112223333") r' = (Ok true, john).
Proof.
  apply (add_then_remove john (lit "1112223333")).
  - reflexivity.
  - change (absent (lit "1112223333") (phones john)). solve_absent.
Defined.

Lemma add_then_remove_duplicate_witness :
  ∃ r', add_phone (lit "1234567890") john = (Ok tt, r')
        ∧ remove_phone (lit "1234567890") r'
          = (Ok true, mkRecord (name john)
                        ([] ++ [mkField (lit "5555555555")] ++ [mkField (lit "1234567890")])).
Proof.
  apply (add_then_remove_duplicate john (lit "1234567890") []
           [mkField (lit "5555555555")] (mkField (lit "1234567890"))).
  - reflexivity.
  - reflexivity.
  - reflexivity.
  - apply absent_nil.
Defined.

Lemma edit_then_find_witness :
  ∃ r', edit_phone (lit "1234567890") (lit "1112223333") john = (Ok true, r')
        ∧ find_phone (lit "1112223333") r' = (Ok (Some (mkField (lit "1112223333"))), r')
        ∧ (lit "1112223333" ≠ lit "1234567890" →
           find_phone (lit "1234567890") r' =
             (Ok (if decide (1 < occurrences (lit "1234567890") (phones john))%nat
                  then Some (mkField (lit "1234567890")) else None), r')).
Proof.
  apply (edit_then_find john (lit "1234567890") (lit "1112223333")).
  - reflexivity.
  - vm_compute. lia.
Defined.

Lemma edit_phone_same_witness :
  edit_phone (lit "5555555555") (lit "5555555555") john = (Ok true, john).
Proof.
  apply (edit_phone_same john (lit "5555555555")).
  - exact john_inv.
  - solve_present (mkField (lit "5555555555")).
Defined.

Lemma edit_phone_round_trip_witness :
  ∃ r', edit_phone (lit "1234567890") (lit "1112223333") john = (Ok true, r')
        ∧ edit_phone (lit "1112223333") (lit "1234567890") r' = (Ok true, john).
Proof.
  apply (edit_phone_round_trip john (lit "1234567890") (lit "1112223333")).
  - exact john_inv.
  - solve_present (mkField (lit "1234567890")).
  - reflexivity.
  - change (absent (lit "1112223333") (phones john)). solve_absent.
Defined.

Lemma add_record_then_delete_witness :
  ∃ book', add_record sample_store 1 (mkBook ∅) = (Ok tt, book')
           ∧ delete (value (name (sample_store 1%positive))) book' = (Ok tt, mkBook ∅).
Proof. apply (add_record_then_delete sample_store (mkBook ∅) 1). reflexivity. Defined.

Lemma add_record_last_wins_witness :
  snd (add_record sample_store 3 (snd (add_record sample_store 1 sample_book)))
  = snd (add_record sample_store 3 sample_book).
Proof. apply (add_record_last_wins sample_store sample_book 1 3). reflexivity. Defined.

Lemma sample_book_wf : book_wf sample_store sample_book.
Proof.
  unfold sample_book. apply book_wf_add_record, book_wf_add_record, book_wf_empty.
Defined.

Lemma book_wf_preserved_witness :
  (∀ r, book_wf sample_store (snd (add_record sample_store r sample_book)))
  ∧ (∀ n, book_wf sample_store (snd (delete n sample_book)))
  ∧ (∀ r o', step (sample_store r) o' → book_wf (<[r := o']> sample_store) sample_book).
Proof.
  apply (proj2 (book_wf_preserved sample_store sample_book)). exact sample_book_wf.
Defined.


Lemma Record_str_add_phone_witness :
  Record_str (snd (add_phone (lit "1112223333") john))
  = Record_str john ++ lit "; " ++ lit "1112223333".
Proof. apply (Record_str_add_phone john (lit "1112223333")). reflexivity. Defined.

Lemma Record_str_injective_witness :
  snd (remove_phone (lit "1112223333") (snd (add_phone (lit "1112223333") john))) = john.
Proof.
  apply (Record_str_injective _ john).
  - apply remove_phone_inv, add_phone_inv, john_inv.
  - exact john_inv.
  - reflexivity.
Defined.
